(** * Asset objects of the chain library

    A shallow embedding of [libraries/chain/include/graphene/chain/asset_object.hpp]:
    the asset record, its bitasset companion object, and the inline member
    functions the header defines.  Member functions the header only declares
    are either taken as parameters or, where a property is about them, given a
    model written from the specification; those models are marked as such. *)

From Stdlib Require Import ZArith Lia List String Ascii Bool.
From stdpp Require Import base decidable option list gmap strings sorting.

Local Open Scope Z_scope.

(** ** Basic types *)

(** [share_type] is [fc::safe<int64_t>], whose arithmetic throws instead of
    wrapping around; amounts are integers here. *)
Definition share_type := Z.

(** Object identifiers are compared by their instance number. *)
Definition object_id_type := N.
Definition account_id_type := N.
Definition asset_id_type := N.

(** [fc::time_point_sec] holds a 32-bit count of seconds; adding an offset
    is 32-bit unsigned addition, comparison is comparison of the counts. *)
Definition time_point_sec := Z.

Definition time_add (t : time_point_sec) (offset : Z) : time_point_sec :=
  (t + offset) mod 2 ^ 32.

(** [asset]: an amount tagged with the asset it is an amount of. *)
Record asset := mk_asset { amount : share_type; asset_id : asset_id_type }.

(** ** Failures *)

(** [assert_exception] is what [FC_ASSERT] throws.  The other constructors
    are the typed failures of the specification's error taxonomy, used by the
    operations that are modelled from the specification;
    [InsufficientSettlementFund] and [NotPermitted] stand for the two
    failures the specification describes without naming. *)
Inductive error :=
  | assert_exception
  | DuplicateSymbol
  | AlreadySettled
  | PriceExceedsCap
  | ExceedsSettlementBudget
  | InvalidAmountFormat
  | InsufficientSettlementFund
  | NotPermitted.

Inductive result (A : Type) :=
  | Ok (a : A)
  | Err (e : error).
Arguments Ok {A} a.
Arguments Err {A} e.

#[export] Instance result_ret : MRet result := fun A a => Ok a.
#[export] Instance result_bind : MBind result := fun A B k r =>
  match r with
  | Ok a => k a
  | Err e => Err e
  end.

Definition FC_ASSERT (c : bool) : result unit :=
  if c then Ok tt else Err assert_exception.

(** The specification's name for the failure [validate] raises. *)
Definition InvalidAssetOptions : error := assert_exception.

(** A C++ integer used as a condition: true when it is not zero. *)
Definition nonzero (x : Z) : bool := negb (x =? 0).

(** ** Prices *)

(** [price] is declared in [protocol/asset.hpp].  The header uses its
    [is_null] member; the feed aggregation, the settlement transition and
    settlement payouts in addition need its order, the 1:1 price and the
    conversion of an amount at a price. *)
Class Price (price : Type) := {
  price_is_null : price → bool;
  price_le : relation price;
  price_le_dec :: RelDecision price_le;
  price_le_total :: Total price_le;
  price_le_trans :: Transitive price_le;
  price_one : price;
  price_convert : share_type → price → share_type
}.

#[export] Instance Z_Price : Price Z := {|
  price_is_null p := p =? 0;
  price_le := Z.le;
  price_one := 1;
  price_convert a p := a * p
|}.

(** ** The asset record *)

Record asset_options := mk_asset_options {
  max_supply : share_type;
  flags : Z;                (* uint16_t *)
  issuer_permissions : Z    (* uint16_t *)
}.

Record asset_object := mk_asset_object {
  get_id : asset_id_type;
  symbol : string;
  precision : nat;          (* uint8_t *)
  issuer : account_id_type;
  options : asset_options;
  dynamic_asset_data_id : object_id_type;
  bitasset_data_id : option object_id_type;
  buyback_account : option account_id_type;
  dividend_data_id : option object_id_type
}.

Record asset_dynamic_data_object := mk_asset_dynamic_data_object {
  current_supply : share_type;
  confidential_supply : share_type;
  accumulated_fees : share_type;
  fee_pool : share_type
}.

Section AssetObject.

(** Masks of [enum asset_issuer_permission_flags] ([protocol/types.hpp]). *)
Variables disable_force_settle global_settle : Z.

Definition is_market_issued (a : asset_object) : bool :=
  match bitasset_data_id a with Some _ => true | None => false end.

Definition can_force_settle (a : asset_object) : bool :=
  negb (nonzero (Z.land (flags (options a)) disable_force_settle)).

Definition can_global_settle (a : asset_object) : bool :=
  nonzero (Z.land (issuer_permissions (options a)) global_settle).

Definition validate (a : asset_object) : result unit :=
  if negb (is_market_issued a) then
    FC_ASSERT (negb (nonzero (Z.land (flags (options a)) disable_force_settle)
                     || nonzero (Z.land (flags (options a)) global_settle))) ;;
    FC_ASSERT (negb (nonzero (Z.land (issuer_permissions (options a)) disable_force_settle)
                     || nonzero (Z.land (issuer_permissions (options a)) global_settle)))
  else Ok tt.

(** [amount_to_string(share_type)] is declared in the header and defined
    elsewhere; the overloads below only call it. *)
Variable amount_to_string : asset_object → share_type → string.

Definition amount_to_string_asset (a : asset_object) (amt : asset)
  : result string :=
  FC_ASSERT (N.eqb (asset_id amt) (get_id a)) ;;
  Ok (amount_to_string a (amount amt)).

Definition amount_to_pretty_string (a : asset_object) (amt : share_type)
  : string :=
  (amount_to_string a amt +:+ " " +:+ symbol a)%string.

Definition amount_to_pretty_string_asset (a : asset_object) (amt : asset)
  : result string :=
  FC_ASSERT (N.eqb (asset_id amt) (get_id a)) ;;
  Ok (amount_to_pretty_string a (amount amt)).

End AssetObject.

(** ** The bitasset object *)

(** A price observation.  Its declaration is in [protocol/asset.hpp]; the
    coordinates kept here are the two the specification names. *)
Record price_feed {price : Type} := mk_price_feed {
  feed_settlement_price : price;
  max_collateralization_ratio : Z
}.
Arguments price_feed : clear implicits.

Record bitasset_options := mk_bitasset_options {
  feed_lifetime_sec : Z;                       (* uint32_t *)
  maximum_force_settlement_percentage : Z
}.

Record asset_bitasset_data_object {price : Type} := mk_bitasset {
  bitasset_opts : bitasset_options;            (* member [options] *)
  feeds : gmap account_id_type (time_point_sec * price_feed price);
  current_feed : price_feed price;
  current_feed_publication_time : time_point_sec;
  is_prediction_market : bool;
  force_settled_volume : share_type;
  settlement_price : price;
  settlement_fund : share_type
}.
Arguments asset_bitasset_data_object : clear implicits.

Section Bitasset.
Context `{Price price}.
Implicit Type b : asset_bitasset_data_object price.

Definition has_settlement b : bool :=
  negb (price_is_null (settlement_price b)).

Definition feed_expiration_time b : time_point_sec :=
  time_add (current_feed_publication_time b)
           (feed_lifetime_sec (bitasset_opts b)).

Definition feed_is_expired_before_hardfork_615 b (current_time : time_point_sec)
  : bool :=
  feed_expiration_time b >=? current_time.

Definition feed_is_expired b (current_time : time_point_sec) : bool :=
  feed_expiration_time b <=? current_time.

End Bitasset.

(** [bitasset_data(db)]: the bitasset object an asset refers to. *)
Definition bitasset_data {price : Type}
    (db : gmap object_id_type (asset_bitasset_data_object price))
    (a : asset_object) : option (asset_bitasset_data_object price) :=
  i ← bitasset_data_id a; db !! i.

(** Field updates of the bitasset object. *)
Section BitassetUpdates.
Context {price : Type}.
Implicit Type b : asset_bitasset_data_object price.

Definition set_feeds b fs :=
  mk_bitasset price (bitasset_opts b) fs (current_feed b)
    (current_feed_publication_time b) (is_prediction_market b)
    (force_settled_volume b) (settlement_price b) (settlement_fund b).

Definition set_current_feed b cf t :=
  mk_bitasset price (bitasset_opts b) (feeds b) cf t (is_prediction_market b)
    (force_settled_volume b) (settlement_price b) (settlement_fund b).

Definition set_force_settled_volume b v :=
  mk_bitasset price (bitasset_opts b) (feeds b) (current_feed b)
    (current_feed_publication_time b) (is_prediction_market b)
    v (settlement_price b) (settlement_fund b).

Definition set_settlement b p fund :=
  mk_bitasset price (bitasset_opts b) (feeds b) (current_feed b)
    (current_feed_publication_time b) (is_prediction_market b)
    (force_settled_volume b) p fund.
End BitassetUpdates.

(** ** Medians *)

(** The lower median: the element of rank [(n - 1) / 2] (counting from 0)
    among the [n] values in ascending order, so that for an even [n] it is
    the lower of the two middle values.  [d] is returned for no values. *)
Definition lower_median {A} (R : relation A) `{!RelDecision R}
    (d : A) (xs : list A) : A :=
  nth ((length xs - 1) / 2)%nat (merge_sort R xs) d.

Definition min_time (d : time_point_sec) (ts : list time_point_sec)
  : time_point_sec :=
  match ts with
  | [] => d
  | t :: ts' => foldl Z.min t ts'
  end.

(** What it means for [m] to be the lower median of [xs], and for [t] to be
    the least of [ts], independently of how they are computed. *)
Definition is_lower_median {A} (R : relation A) (xs : list A) (m : A) : Prop :=
  ∃ s, s ≡ₚ xs ∧ StronglySorted R s ∧ s !! ((length xs - 1) / 2)%nat = Some m.

Definition is_minimum (ts : list Z) (t : Z) : Prop :=
  t ∈ ts ∧ ∀ t', t' ∈ ts → t ≤ t'.

(** ** Price-feed aggregation, settlement and the settlement-volume throttle *)

(** The header declares [update_median_feeds] and
    [max_force_settlement_volume] without their bodies, and the operations
    that publish a feed, settle the asset globally and force-settle an amount
    live in the evaluators.  The operations of this section are models of
    them, written from sections 4.2 to 4.4 and 7 of the specification. *)
Section Market.
Context `{Price price}.
Implicit Type b : asset_bitasset_data_object price.

(** Masks of [enum asset_issuer_permission_flags], and the fixed-point
    denominator of a percentage. *)
Variables disable_force_settle global_settle hundred_percent : Z.

(** Modelled from the spec: [publish_feed(publisher, price, now)], which
    has no counterpart in the header.  It upserts the publisher's entry and
    is rejected once the asset has settled (sections 4.2 and 8). *)
Definition publish_feed (publisher : account_id_type) (p : price_feed price)
    (now : time_point_sec) b : result (asset_bitasset_data_object price) :=
  if has_settlement b then Err AlreadySettled
  else Ok (set_feeds b (<[publisher := (now, p)]> (feeds b))).

(** Modelled from the spec: the selection made by [recompute] (section
    4.2), part of the missing body of [update_median_feeds].  An entry is
    included when its publisher is authorized and it is not stale: its own
    expiration, publication time plus feed lifetime, has not been reached. *)
Definition feed_included (authorized : gset account_id_type) (now : time_point_sec)
    b (e : account_id_type * (time_point_sec * price_feed price)) : bool :=
  bool_decide (e.1 ∈ authorized)
  && negb (time_add e.2.1 (feed_lifetime_sec (bitasset_opts b)) <=? now).

Definition included_feeds (authorized : gset account_id_type) (now : time_point_sec)
    b : list (time_point_sec * price_feed price) :=
  (List.filter (feed_included authorized now b) (map_to_list (feeds b))).*2.

(** Modelled from the spec: the body of [update_median_feeds], which the
    specification calls [recompute(now)] (section 4.2); the set of authorized
    publishers is supplied by the caller.  Each coordinate of [current_feed]
    becomes the lower median of that coordinate over the included feeds and
    [current_feed_publication_time] their least publication time; the call
    is rejected once the asset has settled.  The specification leaves open
    what is stored when no feed is included; the model then keeps the
    previous aggregate. *)
Definition update_median_feeds (authorized : gset account_id_type)
    (current_time : time_point_sec) b
  : result (asset_bitasset_data_object price) :=
  if has_settlement b then Err AlreadySettled
  else
    let sel := included_feeds authorized current_time b in
    Ok (set_current_feed b
          {| feed_settlement_price :=
               lower_median price_le (feed_settlement_price (current_feed b))
                 (feed_settlement_price <$> sel.*2);
             max_collateralization_ratio :=
               lower_median Z.le (max_collateralization_ratio (current_feed b))
                 (max_collateralization_ratio <$> sel.*2) |}
          (min_time (current_feed_publication_time b) sel.*1)).

(** Modelled from the spec: the transition [Active → GlobalSettled] of
    section 4.3, which has no counterpart in the header.  The asset must be
    market-issued with the global-settle permission, a prediction market
    settles at 1:1 at most, and a settled asset cannot settle again. *)
Definition global_settlement (a : asset_object) (p : price)
    (collateral : share_type) b : result (asset_bitasset_data_object price) :=
  if has_settlement b then Err AlreadySettled
  else if negb (is_market_issued a && can_global_settle global_settle a)
  then Err NotPermitted
  else if is_prediction_market b && negb (bool_decide (price_le p price_one))
  then Err PriceExceedsCap
  else Ok (set_settlement b p collateral).

(** Modelled from the spec: the body of [max_force_settlement_volume]
    (section 4.4): the configured percentage, a fixed-point number over
    [hundred_percent], applied to the supply and rounded down. *)
Definition max_force_settlement_volume b (supply : share_type) : share_type :=
  supply * maximum_force_settlement_percentage (bitasset_opts b) / hundred_percent.

(** Modelled from the spec: the throttle of section 4.4, which has no
    counterpart in the header.  A request is taken whole or not at all. *)
Definition consume_settlement_volume (supply amt : share_type) b
  : result (asset_bitasset_data_object price) :=
  if max_force_settlement_volume b supply <? force_settled_volume b + amt
  then Err ExceedsSettlementBudget
  else Ok (set_force_settled_volume b (force_settled_volume b + amt)).

(** Modelled from the spec: [force_settle(amount)] of section 4.3, which
    has no counterpart in the header.  After global settlement the request
    is paid from the settlement fund at the settlement price; before, it is
    an ordinary force settlement, refused on a prediction market and when
    force settlement is disabled, and otherwise subject to the throttle. *)
Definition force_settle (a : asset_object) (supply amt : share_type) b
  : result (asset_bitasset_data_object price) :=
  if has_settlement b then
    let payout := price_convert amt (settlement_price b) in
    if settlement_fund b <? payout then Err InsufficientSettlementFund
    else Ok (set_settlement b (settlement_price b) (settlement_fund b - payout))
  else if is_prediction_market b then Err NotPermitted
  else if negb (can_force_settle disable_force_settle a) then Err NotPermitted
  else consume_settlement_volume supply amt b.

(** Modelled from the spec: the per-interval reset of the consumed volume
    (section 4.4), which has no counterpart in the header; the volume is
    frozen once the asset has settled (section 3). *)
Definition reset_force_settled_volume b
  : result (asset_bitasset_data_object price) :=
  if has_settlement b then Err AlreadySettled
  else Ok (set_force_settled_volume b 0).

(** The operations above as a transition system.  A call that fails leaves
    the object as it was (section 7). *)
Inductive operation :=
  | PublishFeed (publisher : account_id_type) (p : price_feed price)
                (now : time_point_sec)
  | Recompute (authorized : gset account_id_type) (now : time_point_sec)
  | GlobalSettle (a : asset_object) (p : price) (collateral : share_type)
  | ForceSettle (a : asset_object) (supply amt : share_type)
  | ResetVolume.

Definition is_feed_operation (o : operation) : bool :=
  match o with
  | PublishFeed _ _ _ | Recompute _ _ => true
  | _ => false
  end.

Definition step (o : operation) b : result (asset_bitasset_data_object price) :=
  match o with
  | PublishFeed publisher p now => publish_feed publisher p now b
  | Recompute authorized now => update_median_feeds authorized now b
  | GlobalSettle a p collateral => global_settlement a p collateral b
  | ForceSettle a supply amt => force_settle a supply amt b
  | ResetVolume => reset_force_settled_volume b
  end.

Definition apply (o : operation) b : asset_bitasset_data_object price :=
  match step o b with
  | Ok b' => b'
  | Err _ => b
  end.

Definition run (os : list operation) b : asset_bitasset_data_object price :=
  foldl (fun s o => apply o s) b os.

End Market.

(** ** Amounts as decimal strings *)

(** [amount(share_type)]: an amount of this asset. *)
Definition amount_of (a : asset_object) (x : share_type) : asset :=
  mk_asset x (get_id a).

Definition is_digit (c : ascii) : bool :=
  ((48 <=? N_of_ascii c) && (N_of_ascii c <=? 57))%N.

Definition digit_value (c : ascii) : N := (N_of_ascii c - 48)%N.

Definition digit_char (d : N) : ascii := ascii_of_N (48 + d).

(** The number written by a string of digits, most significant first,
    continuing from [acc]; [None] when a character is not a digit. *)
Fixpoint parse_digits (acc : N) (s : string) : option N :=
  match s with
  | EmptyString => Some acc
  | String c s' =>
      if is_digit c then parse_digits (10 * acc + digit_value c)%N s' else None
  end.

(** The [w] low decimal digits of [n], most significant first. *)
Fixpoint fixed_digits (w : nat) (n : N) : string :=
  match w with
  | O => EmptyString
  | S w' => fixed_digits w' (n / 10)%N +:+ String (digit_char (n mod 10)%N) EmptyString
  end.

(** Leading zeros removed, the last digit kept. *)
Fixpoint strip_zeros (s : string) : string :=
  match s with
  | String c (String _ _ as s') => if Ascii.eqb c "0" then strip_zeros s' else s
  | _ => s
  end.

Definition decimal (n : N) : string :=
  strip_zeros (fixed_digits (S (N.to_nat (N.size n))) n).

(** The text before the first decimal point, and the text after it when
    there is a point. *)
Fixpoint split_point (s : string) : string * option string :=
  match s with
  | EmptyString => (EmptyString, None)
  | String c s' =>
      if Ascii.eqb c "." then (EmptyString, Some s')
      else (String c (split_point s').1, (split_point s').2)
  end.

Fixpoint all_digits (s : string) : bool :=
  match s with
  | EmptyString => true
  | String c s' => is_digit c && all_digits s'
  end.

(** One unit of the asset in its smallest units. *)
Definition scaled_precision (a : asset_object) : N :=
  (10 ^ N.of_nat (precision a))%N.

(** Modelled from the spec: the body of [amount_to_string(share_type)],
    which the header only declares.  Following section 6 of the
    specification, an amount is written with a minus sign when negative, its
    whole part, and, for a positive precision, a decimal point and exactly
    [precision] fractional digits. *)
Definition amount_to_string (a : asset_object) (x : share_type) : string :=
  ((if (x <? 0)%Z then "-" else "")
   +:+ decimal (Z.abs_N x / scaled_precision a)
   +:+ match precision a with
       | O => ""
       | S _ => "." +:+ fixed_digits (precision a) (Z.abs_N x mod scaled_precision a)
       end)%string.

Definition strip_sign (s : string) : bool * string :=
  match s with
  | String c s' => if Ascii.eqb c "-" then (true, s') else (false, s)
  | EmptyString => (false, s)
  end.

Definition with_sign (negative : bool) (n : N) : share_type :=
  if negative then - Z.of_N n else Z.of_N n.

(** Modelled from the spec: the body of [amount_from_string], which the
    header only declares.  Following section 6 of the specification, a
    string is read when it is an optional minus sign, at least one digit, and
    optionally a decimal point followed by at most [precision] digits; any
    other string is an [InvalidAmountFormat]. *)
Definition amount_from_string (a : asset_object) (amount_string : string)
  : result asset :=
  let negative := (strip_sign amount_string).1 in
  let body := (strip_sign amount_string).2 in
  let lhs := (split_point body).1 in
  match lhs, parse_digits 0 lhs, (split_point body).2 with
  | String _ _, Some whole, None =>
      Ok (amount_of a (with_sign negative (whole * scaled_precision a)))
  | String _ _, Some whole, Some rhs =>
      if (String.length rhs <=? precision a)%nat then
        match parse_digits 0 rhs with
        | Some frac =>
            Ok (amount_of a
                  (with_sign negative
                     (whole * scaled_precision a
                      + frac * 10 ^ N.of_nat (precision a - String.length rhs))))
        | None => Err InvalidAmountFormat
        end
      else Err InvalidAmountFormat
  | _, _, _ => Err InvalidAmountFormat
  end.

(** The accepted strings, described without reference to the parser. *)
Definition well_formed_amount (p : nat) (s : string) : Prop :=
  ∃ sign whole frac,
    s = (sign +:+ whole +:+ frac)%string
    ∧ (sign = "" ∨ sign = "-")%string
    ∧ whole ≠ EmptyString ∧ all_digits whole = true
    ∧ (frac = EmptyString
       ∨ ∃ ds, frac = ("." +:+ ds)%string ∧ all_digits ds = true
               ∧ (String.length ds ≤ p)%nat).

(** ** The asset index *)

(** The indices of [asset_object_multi_index_type] that are
    [ordered_unique] on a member: [by_id] and [by_symbol]. *)
Record asset_index := mk_asset_index {
  by_id : gmap object_id_type asset_object;
  by_symbol : gmap string object_id_type;
  next_id : object_id_type
}.

Definition set_id (r : asset_object) (i : asset_id_type) : asset_object :=
  mk_asset_object i (symbol r) (precision r) (issuer r) (options r)
    (dynamic_asset_data_id r) (bitasset_data_id r) (buyback_account r)
    (dividend_data_id r).

(** Modelled from the spec: insertion into the asset index, which belongs
    to the object database and not to the header.  Following section 4.1 of
    the specification, the store assigns the identity, and an insertion
    fails with [DuplicateSymbol] when the symbol is already indexed. *)
Definition insert_asset (r : asset_object) (st : asset_index) : result asset_index :=
  match by_symbol st !! symbol r with
  | Some _ => Err DuplicateSymbol
  | None =>
      Ok {| by_id := <[next_id st := set_id r (next_id st)]> (by_id st);
            by_symbol := <[symbol r := next_id st]> (by_symbol st);
            next_id := (next_id st + 1)%N |}
  end.

Definition after_insert (r : asset_object) (st : asset_index) : asset_index :=
  match insert_asset r st with
  | Ok st' => st'
  | Err _ => st
  end.

(** ** Sample objects *)

(** The masks are parameters of the development; the examples take two
    distinct bits for them. *)
Definition sample_disable_force_settle : Z := 16.
Definition sample_global_settle : Z := 32.

Definition usd (p : nat) : asset_object :=
  mk_asset_object 1%N "USD" p 0%N (mk_asset_options 0 0 0) 0%N None None None.

(** A user-issued asset carrying the disable-force-settle flag. *)
Definition flagged_uia : asset_object :=
  mk_asset_object 2%N "GOLD" 4 0%N (mk_asset_options 0 16 0) 0%N None None None.

(** A market-issued asset with no flag set, and its bitasset object, a
    prediction market. *)
Definition bitusd : asset_object :=
  mk_asset_object 3%N "BITUSD" 4 0%N (mk_asset_options 0 0 32) 0%N (Some 7%N) None None.

Definition sample_feed (p : Z) : price_feed Z := mk_price_feed Z p 1750.

Definition bitusd_data : asset_bitasset_data_object Z :=
  mk_bitasset Z (mk_bitasset_options 86400 1000) ∅ (sample_feed 0) 0 true 0 0 0.

(** An active, ordinary bitasset with the given feeds: a feed lifetime of a
    day and a settlement cap of 1000 parts in [10000]. *)
Definition active_data
    (fs : gmap account_id_type (time_point_sec * price_feed Z))
  : asset_bitasset_data_object Z :=
  mk_bitasset Z (mk_bitasset_options 86400 1000) fs (sample_feed 0) 0 false 0 0 0.

Definition feeds_abc : gmap account_id_type (time_point_sec * price_feed Z) :=
  {[ 1%N := (100, sample_feed 10); 2%N := (200, sample_feed 20);
     3%N := (300, sample_feed 30) ]}.

Definition feeds_ab : gmap account_id_type (time_point_sec * price_feed Z) :=
  {[ 1%N := (100, sample_feed 10); 2%N := (200, sample_feed 20) ]}.

Definition publishers : gset account_id_type := {[ 1%N; 2%N; 3%N ]}.

(** The same object after a global settlement at price 2 with a fund of 500. *)
Definition settled_data : asset_bitasset_data_object Z :=
  mk_bitasset Z (mk_bitasset_options 86400 1000) feeds_abc (sample_feed 20) 100
    false 0 2 500.

Definition bitusd_db : gmap object_id_type (asset_bitasset_data_object Z) :=
  {[ 7%N := bitusd_data ]}.

(** ** Further members of the header *)

Section AssetFlags.

(** Further masks of [enum asset_issuer_permission_flags]. *)
Variables charge_market_fee transfer_restricted override_authority
          disable_confidential : Z.

Definition charges_market_fees (a : asset_object) : bool :=
  nonzero (Z.land (flags (options a)) charge_market_fee).

Definition is_transfer_restricted (a : asset_object) : bool :=
  nonzero (Z.land (flags (options a)) transfer_restricted).

Definition can_override (a : asset_object) : bool :=
  nonzero (Z.land (flags (options a)) override_authority).

Definition allow_confidential (a : asset_object) : bool :=
  negb (nonzero (Z.land (flags (options a)) disable_confidential)).

End AssetFlags.

(** The order of the [by_type] index: [std::less] on the composite key
    ([is_market_issued()], [id]), compared component by component. *)
Definition by_type_less (a a' : asset_object) : bool :=
  (negb (is_market_issued a) && is_market_issued a')
  || (Bool.eqb (is_market_issued a) (is_market_issued a')
      && (get_id a <? get_id a')%N).

(** The order of the [by_feed_expiration] index, an [ordered_non_unique]
    index on [feed_expiration_time()]: along a traversal the keys never
    decrease. *)
Definition by_feed_expiration `{Price price}
    (b b' : asset_bitasset_data_object price) : Prop :=
  feed_expiration_time b ≤ feed_expiration_time b'.

(** A bitasset object whose current feed was published at [t], with a feed
    lifetime of a day. *)
Definition published_at (t : time_point_sec) : asset_bitasset_data_object Z :=
  mk_bitasset Z (mk_bitasset_options 86400 1000) ∅ (sample_feed 0) t false 0 0 0.

(** * Properties *)

(** ** The asset record *)

(** C8. [has_settlement()] is true exactly when [settlement_price] is not
    null, and an asset is market-issued exactly when its [bitasset_data_id]
    is present. *)
Theorem has_settlement_and_market_issued `{Price price}
    (b : asset_bitasset_data_object price) (a : asset_object) :
  (has_settlement b = true ↔ price_is_null (settlement_price b) = false)
  ∧ (is_market_issued a = true ↔ is_Some (bitasset_data_id a)).
Proof.
  split.
  - unfold has_settlement. apply negb_true_iff.
  - unfold is_market_issued. destruct (bitasset_data_id a) as [i|].
    + split; [eauto | done].
    + split; [done | by intros [i Hi]].
Qed.

(** C3. The expiration time is the publication time of the current feed
    plus the feed lifetime, in the 32-bit arithmetic of [time_point_sec] (so
    the plain sum whenever that fits); [feed_is_expired] holds exactly when
    [now >= feed_expiration_time()], and the legacy predicate exactly when
    [now <= feed_expiration_time()]. *)
Theorem feed_expiration_predicates `{Price price}
    (b : asset_bitasset_data_object price) (now : time_point_sec) :
  feed_expiration_time b
    = time_add (current_feed_publication_time b) (feed_lifetime_sec (bitasset_opts b))
  ∧ (0 ≤ current_feed_publication_time b + feed_lifetime_sec (bitasset_opts b) < 2 ^ 32 →
     feed_expiration_time b
       = current_feed_publication_time b + feed_lifetime_sec (bitasset_opts b))
  ∧ (feed_is_expired b now = true ↔ now >= feed_expiration_time b)
  ∧ (feed_is_expired_before_hardfork_615 b now = true ↔ now <= feed_expiration_time b).
Proof.
  repeat split.
  - intros Hrange. unfold feed_expiration_time, time_add.
    by apply Z.mod_small.
  - unfold feed_is_expired. rewrite Z.leb_le. lia.
  - unfold feed_is_expired. rewrite Z.leb_le. lia.
  - unfold feed_is_expired_before_hardfork_615. rewrite Z.geb_le. lia.
  - unfold feed_is_expired_before_hardfork_615. rewrite Z.geb_le. lia.
Qed.

Lemma feed_expiration_predicates_witness :
  feed_expiration_time bitusd_data = 86400
  ∧ feed_is_expired bitusd_data 86400 = true
  ∧ feed_is_expired_before_hardfork_615 bitusd_data 86400 = true
  ∧ feed_is_expired_before_hardfork_615 bitusd_data 86401 = false.
Proof.
  destruct (feed_expiration_predicates bitusd_data 86400) as (_ & Hsum & Hnew & Hold).
  split; [apply Hsum; simpl; lia |].
  split; [apply Hnew; vm_compute; discriminate |].
  split; [apply Hold; vm_compute; discriminate |].
  reflexivity.
Defined.

Lemma nonzero_false (x : Z) : nonzero x = false ↔ x = 0.
Proof. unfold nonzero. rewrite negb_false_iff. apply Z.eqb_eq. Qed.

Lemma nonzero_true (x : Z) : nonzero x = true ↔ x ≠ 0.
Proof. unfold nonzero. rewrite negb_true_iff. apply Z.eqb_neq. Qed.

(** [can_force_settle()] reads the disable-force-settle flag and nothing
    else. *)
Lemma can_force_settle_flag (dfs : Z) (a : asset_object) :
  can_force_settle dfs a = false ↔ Z.land (flags (options a)) dfs ≠ 0.
Proof.
  unfold can_force_settle. rewrite negb_false_iff. apply nonzero_true.
Qed.

(** C4, as stated, fails: a prediction market whose asset does not carry the
    disable-force-settle flag has [can_force_settle()] true, whatever the
    value of the mask. *)
Lemma can_force_settle_prediction_market_counterexample :
  ¬ (∀ (dfs : Z) (db : gmap object_id_type (asset_bitasset_data_object Z))
       (a : asset_object) (b : asset_bitasset_data_object Z),
       bitasset_data db a = Some b →
       is_prediction_market b = true →
       can_force_settle dfs a = false).
Proof.
  intros Hclaim.
  specialize (Hclaim sample_disable_force_settle bitusd_db bitusd bitusd_data
                     eq_refl eq_refl).
  vm_compute in Hclaim. discriminate.
Qed.

(** C4, amended.  For an asset whose bitasset data is a prediction market,
    [can_force_settle()] is false exactly when the disable-force-settle bit
    is set in [options.flags]; [is_prediction_market] is not consulted. *)
Theorem can_force_settle_prediction_market (dfs : Z)
    `{Price price} (db : gmap object_id_type (asset_bitasset_data_object price))
    (a : asset_object) (b : asset_bitasset_data_object price) :
  bitasset_data db a = Some b →
  is_prediction_market b = true →
  (can_force_settle dfs a = false ↔ Z.land (flags (options a)) dfs ≠ 0).
Proof. intros _ _. apply can_force_settle_flag. Qed.

Lemma can_force_settle_prediction_market_witness :
  bitasset_data bitusd_db bitusd = Some bitusd_data
  ∧ is_prediction_market bitusd_data = true
  ∧ (can_force_settle sample_disable_force_settle bitusd = false
     ↔ Z.land (flags (options bitusd)) sample_disable_force_settle ≠ 0).
Proof.
  split; [reflexivity |]. split; [reflexivity |].
  apply (can_force_settle_prediction_market sample_disable_force_settle
           bitusd_db bitusd bitusd_data); reflexivity.
Defined.

(** C5. For an asset that is not market-issued, [validate()] succeeds
    exactly when the disable-force-settle and global-settle bits are clear
    in both [options.flags] and [options.issuer_permissions], and otherwise
    fails with the assertion failure the specification calls
    [InvalidAssetOptions]; for a market-issued asset it always succeeds.
    [validate()] returns no object: it cannot commit the record. *)
Theorem validate_user_issued (dfs gs : Z) (a : asset_object) :
  (bitasset_data_id a = None →
     (validate dfs gs a = Ok tt
      ↔ Z.land (flags (options a)) dfs = 0
        ∧ Z.land (flags (options a)) gs = 0
        ∧ Z.land (issuer_permissions (options a)) dfs = 0
        ∧ Z.land (issuer_permissions (options a)) gs = 0)
     ∧ (validate dfs gs a = Ok tt ∨ validate dfs gs a = Err InvalidAssetOptions))
  ∧ (is_Some (bitasset_data_id a) → validate dfs gs a = Ok tt).
Proof.
  unfold validate, is_market_issued. split.
  - intros ->. simpl.
    destruct (nonzero (Z.land (flags (options a)) dfs)) eqn:E1;
    destruct (nonzero (Z.land (flags (options a)) gs)) eqn:E2;
    destruct (nonzero (Z.land (issuer_permissions (options a)) dfs)) eqn:E3;
    destruct (nonzero (Z.land (issuer_permissions (options a)) gs)) eqn:E4;
    cbv [mbind result_bind FC_ASSERT negb orb InvalidAssetOptions];
    rewrite ?nonzero_false, ?nonzero_true in *;
    (split;
     [ split; [ intros Hv; try discriminate Hv; auto
              | intros (? & ? & ? & ?); try reflexivity; congruence ]
     | (by left) || (by right) ]).
  - intros [i ->]. reflexivity.
Qed.

Lemma validate_user_issued_witness :
  validate sample_disable_force_settle sample_global_settle (usd 2) = Ok tt
  ∧ validate sample_disable_force_settle sample_global_settle flagged_uia
    = Err InvalidAssetOptions
  ∧ validate sample_disable_force_settle sample_global_settle bitusd = Ok tt.
Proof.
  split; [| split].
  - destruct (validate_user_issued sample_disable_force_settle sample_global_settle
                (usd 2)) as [Huia _].
    destruct (Huia eq_refl) as [Hiff _]. apply Hiff. repeat split.
  - destruct (validate_user_issued sample_disable_force_settle sample_global_settle
                flagged_uia) as [Huia _].
    destruct (Huia eq_refl) as [Hiff [Hok | Herr]]; [| exact Herr].
    apply Hiff in Hok. destruct Hok as [Hbit _]. vm_compute in Hbit. discriminate.
  - destruct (validate_user_issued sample_disable_force_settle sample_global_settle
                bitusd) as [_ Hmia].
    apply Hmia. by exists 7%N.
Defined.

(** C10. The overloads taking an [asset] require its [asset_id] to be this
    asset's id: when the ids agree they return what the [share_type]
    overload returns on the amount, and when they differ the assertion
    fails and nothing is formatted. *)
Theorem amount_to_string_asset_precondition
    (to_string : asset_object → share_type → string)
    (a : asset_object) (amt : asset) :
  (asset_id amt = get_id a →
     amount_to_string_asset to_string a amt = Ok (to_string a (amount amt))
     ∧ amount_to_pretty_string_asset to_string a amt
       = Ok (amount_to_pretty_string to_string a (amount amt)))
  ∧ (asset_id amt ≠ get_id a →
     amount_to_string_asset to_string a amt = Err assert_exception
     ∧ amount_to_pretty_string_asset to_string a amt = Err assert_exception).
Proof.
  unfold amount_to_string_asset, amount_to_pretty_string_asset.
  split; intros Hid.
  - apply N.eqb_eq in Hid. rewrite Hid. by split.
  - apply N.eqb_neq in Hid. rewrite Hid. by split.
Qed.

Lemma amount_to_string_asset_precondition_witness :
  amount_to_string_asset amount_to_string (usd 2) (mk_asset 12345 1%N) = Ok "123.45"%string
  ∧ amount_to_pretty_string_asset amount_to_string (usd 2) (mk_asset 12345 1%N)
    = Ok "123.45 USD"%string
  ∧ amount_to_string_asset amount_to_string (usd 2) (mk_asset 12345 9%N)
    = Err assert_exception.
Proof.
  destruct (amount_to_string_asset_precondition amount_to_string (usd 2)
              (mk_asset 12345 1%N)) as [Hsame _].
  destruct (Hsame eq_refl) as [Hs Hp].
  destruct (amount_to_string_asset_precondition amount_to_string (usd 2)
              (mk_asset 12345 9%N)) as [_ Hdiff].
  split; [exact Hs |]. split; [exact Hp |].
  apply Hdiff. discriminate.
Defined.

(** ** Price-feed aggregation *)

Lemma filter_all {A} (P : A → Prop) `{∀ x, Decision (P x)} (l : list A) :
  Forall P l → filter P l = l.
Proof.
  induction 1 as [|x l Hx _ IH]; [done |].
  by rewrite filter_cons, decide_True, IH.
Qed.

Lemma filter_none {A} (P : A → Prop) `{∀ x, Decision (P x)} (l : list A) :
  Forall (λ x, ¬ P x) l → filter P l = [].
Proof.
  induction 1 as [|x l Hx _ IH]; [done |].
  by rewrite filter_cons, decide_False, IH.
Qed.

Section Median.
Context {A : Type} (R : relation A) `{!RelDecision R, !Total R, !Transitive R}.

Lemma lower_median_rank (xs : list A) :
  xs ≠ [] → ((length xs - 1) / 2 < length xs)%nat.
Proof.
  intros Hne. apply Nat.Div0.div_lt_upper_bound.
  destruct xs; [done |]. cbn [length]. lia.
Qed.

Lemma lower_median_correct (d : A) (xs : list A) :
  xs ≠ [] → is_lower_median R xs (lower_median R d xs).
Proof.
  intros Hne. exists (merge_sort R xs).
  split; [apply merge_sort_Permutation |].
  split; [by apply StronglySorted_merge_sort |].
  unfold lower_median.
  destruct (nth_lookup_or_length (merge_sort R xs) ((length xs - 1) / 2)%nat d)
    as [Hin | Hout]; [done |].
  rewrite (Permutation_length (merge_sort_Permutation R xs)) in Hout.
  apply lower_median_rank in Hne. lia.
Qed.

(** The lower median by counting: at most [(n - 1) / 2] of the [n] values
    are strictly below it, and more than [(n - 1) / 2] are at most it. *)
Lemma is_lower_median_counts (xs : list A) (m : A) :
  is_lower_median R xs m →
  m ∈ xs
  ∧ (length (filter (λ x, ¬ R m x) xs) ≤ (length xs - 1) / 2)%nat
  ∧ ((length xs - 1) / 2 < length (filter (λ x, R x m) xs))%nat.
Proof.
  intros (s & Hperm & Hsorted & Hrank).
  set (k := ((length xs - 1) / 2)%nat) in *.
  rewrite <- Hperm. clear Hperm.
  assert (Hrefl : R m m) by (destruct (total R m m); done).
  pose proof (take_drop_middle s k m Hrank) as Hsplit.
  assert (Hk : length (take k s) = k).
  { apply length_take_le. apply lookup_lt_Some in Hrank. lia. }
  clear Hrank. revert Hsplit Hk.
  generalize (take k s) (drop (S k) s). intros below above <- Hk.
  apply StronglySorted_app in Hsorted as (Hbelow & _ & Hrest).
  apply StronglySorted_cons in Hrest as (Habove & _).
  split; [apply elem_of_app; right; left |].
  rewrite !filter_app, !length_app.
  rewrite (filter_cons_True (λ x, R x m)) by done.
  rewrite (filter_cons_False (λ x, ¬ R m x)) by tauto.
  split.
  - rewrite (filter_none (λ x, ¬ R m x) above).
    + pose proof (length_filter (λ x, ¬ R m x) below). simpl. lia.
    + eapply Forall_impl; [exact Habove | tauto].
  - rewrite (filter_all (λ x, R x m) below).
    + cbn [length]. lia.
    + apply Forall_forall. intros x Hx. apply Hbelow; [done | left].
Qed.

(** For an order that is also antisymmetric the lower median is unique. *)
Lemma is_lower_median_unique `{!AntiSymm (=) R} (xs : list A) (m m' : A) :
  is_lower_median R xs m → is_lower_median R xs m' → m = m'.
Proof.
  intros (s & Hperm & Hsorted & Hrank) (s' & Hperm' & Hsorted' & Hrank').
  assert (s = s') as ->; [| congruence].
  apply (StronglySorted_unique R); [done | done |]. by rewrite Hperm, Hperm'.
Qed.
End Median.

Lemma foldl_min_spec (ts : list Z) (t : Z) :
  foldl Z.min t ts ∈ t :: ts ∧ ∀ t', t' ∈ t :: ts → foldl Z.min t ts ≤ t'.
Proof.
  revert t. induction ts as [|u ts IH]; intros t; cbn [foldl].
  - split; [left |]. intros t' Ht'. apply list_elem_of_singleton in Ht'. lia.
  - destruct (IH (Z.min t u)) as [Hin Hle]. split.
    + apply elem_of_cons in Hin as [Heq | Hin].
      * rewrite Heq. destruct (Z.min_spec t u) as [[_ ->] | [_ ->]];
          [left | right; left].
      * by do 2 right.
    + intros t' Ht'.
      apply elem_of_cons in Ht' as [-> | Ht'].
      * specialize (Hle (Z.min t u) ltac:(left)). lia.
      * apply elem_of_cons in Ht' as [-> | Ht'].
        -- specialize (Hle (Z.min t u) ltac:(left)). lia.
        -- apply Hle. by right.
Qed.

Lemma min_time_correct (d : time_point_sec) (ts : list time_point_sec) :
  ts ≠ [] → is_minimum ts (min_time d ts).
Proof.
  destruct ts as [|t ts]; [done | intros _].
  apply foldl_min_spec.
Qed.

Section Aggregation.
Context `{Price price}.
Implicit Type b : asset_bitasset_data_object price.

(** The included feeds are the entries of [feeds] whose publisher is
    authorized and which are not stale. *)
Lemma elem_of_included_feeds (authorized : gset account_id_type)
    (now : time_point_sec) b (t : time_point_sec) (f : price_feed price) :
  (t, f) ∈ included_feeds authorized now b
  ↔ ∃ publisher, feeds b !! publisher = Some (t, f)
                 ∧ publisher ∈ authorized
                 ∧ now < time_add t (feed_lifetime_sec (bitasset_opts b)).
Proof.
  unfold included_feeds. rewrite list_elem_of_fmap. split.
  - intros ([publisher e] & Heq & Hin). cbn [snd] in Heq. subst e.
    rewrite list_elem_of_In, filter_In in Hin. destruct Hin as [Hin Hincl].
    rewrite <- list_elem_of_In, elem_of_map_to_list in Hin.
    unfold feed_included in Hincl. cbn [fst snd] in *.
    apply andb_true_iff in Hincl as [Hauth Hfresh].
    apply bool_decide_eq_true in Hauth.
    apply negb_true_iff, Z.leb_gt in Hfresh.
    by exists publisher.
  - intros (publisher & Hfeed & Hauth & Hfresh).
    exists (publisher, (t, f)). split; [done |].
    rewrite list_elem_of_In, filter_In. split.
    + by rewrite <- list_elem_of_In, elem_of_map_to_list.
    + unfold feed_included. cbn [fst snd].
      apply andb_true_iff. split.
      * by apply bool_decide_eq_true.
      * by apply negb_true_iff, Z.leb_gt.
Qed.
End Aggregation.

(** C1. For a bitasset that has not settled and has at least one included
    feed, [update_median_feeds] succeeds; each coordinate of the resulting
    [current_feed] is the lower median of that coordinate over the included
    feeds (the entries whose publisher is authorized and which are not
    stale), and [current_feed_publication_time] is the least publication
    time among them.  Feeds 10, 20, 30 give 20, and feeds 10, 20 give 10. *)
Theorem update_median_feeds_median :
  (∀ `{Price price} (authorized : gset account_id_type) (now : time_point_sec)
     (b : asset_bitasset_data_object price),
     has_settlement b = false →
     included_feeds authorized now b ≠ [] →
     (∀ t f, (t, f) ∈ included_feeds authorized now b
             ↔ ∃ publisher, feeds b !! publisher = Some (t, f)
                            ∧ publisher ∈ authorized
                            ∧ now < time_add t (feed_lifetime_sec (bitasset_opts b)))
     ∧ ∃ b', update_median_feeds authorized now b = Ok b'
         ∧ is_lower_median price_le
             (feed_settlement_price <$> (included_feeds authorized now b).*2)
             (feed_settlement_price (current_feed b'))
         ∧ is_lower_median Z.le
             (max_collateralization_ratio <$> (included_feeds authorized now b).*2)
             (max_collateralization_ratio (current_feed b'))
         ∧ is_minimum (included_feeds authorized now b).*1
             (current_feed_publication_time b'))
  ∧ (∃ b', update_median_feeds publishers 400 (active_data feeds_abc) = Ok b'
           ∧ feed_settlement_price (current_feed b') = 20
           ∧ current_feed_publication_time b' = 100)
  ∧ (∃ b', update_median_feeds publishers 400 (active_data feeds_ab) = Ok b'
           ∧ feed_settlement_price (current_feed b') = 10
           ∧ current_feed_publication_time b' = 100).
Proof.
  split; [| split].
  - intros price HP authorized now b Hactive Hsome.
    split; [intros t f; apply elem_of_included_feeds |].
    unfold update_median_feeds. rewrite Hactive.
    eexists. split; [reflexivity |].
    cbn [set_current_feed current_feed current_feed_publication_time
         feed_settlement_price max_collateralization_ratio].
    split; [| split].
    + apply lower_median_correct; try apply _.
      by intros Hnil; do 2 apply fmap_nil_inv in Hnil.
    + apply lower_median_correct; try apply _.
      by intros Hnil; do 2 apply fmap_nil_inv in Hnil.
    + apply min_time_correct.
      by intros Hnil; apply fmap_nil_inv in Hnil.
  - eexists. split; [vm_compute; reflexivity | by split].
  - eexists. split; [vm_compute; reflexivity | by split].
Qed.

Lemma update_median_feeds_median_witness :
  has_settlement (active_data feeds_abc) = false
  ∧ included_feeds publishers 400 (active_data feeds_abc) ≠ []
  ∧ ∃ b', update_median_feeds publishers 400 (active_data feeds_abc) = Ok b'
      ∧ is_lower_median Z.le
          (feed_settlement_price
             <$> (included_feeds publishers 400 (active_data feeds_abc)).*2)
          (feed_settlement_price (current_feed b'))
      ∧ is_minimum (included_feeds publishers 400 (active_data feeds_abc)).*1
          (current_feed_publication_time b').
Proof.
  assert (Hactive : has_settlement (active_data feeds_abc) = false) by reflexivity.
  assert (Hsome : included_feeds publishers 400 (active_data feeds_abc) ≠ [])
    by (vm_compute; discriminate).
  split; [exact Hactive |]. split; [exact Hsome |].
  destruct update_median_feeds_median as [Hgeneral _].
  destruct (Hgeneral Z Z_Price publishers 400 (active_data feeds_abc) Hactive Hsome)
    as (_ & b' & Hrun & Hprice & _ & Htime).
  exists b'. split; [exact Hrun |]. split; [exact Hprice | exact Htime].
Defined.

(** ** Settlement *)

Section Settlement.
Context {price : Type} {HP : Price price}.
Variables disable_force_settle global_settle hundred_percent : Z.
Implicit Type b : asset_bitasset_data_object price.
Implicit Type o : operation (price := price).

Local Abbreviation apply_op := (apply disable_force_settle global_settle hundred_percent).
Local Abbreviation run_ops := (run disable_force_settle global_settle hundred_percent).

(** No feed operation writes the settlement fields, settled or not. *)
Lemma feed_operation_keeps_settlement o b :
  is_feed_operation o = true →
  settlement_price (apply_op o b) = settlement_price b
  ∧ settlement_fund (apply_op o b) = settlement_fund b.
Proof.
  destruct o; try discriminate; intros _; unfold apply, step.
  - unfold publish_feed. by destruct (has_settlement b).
  - unfold update_median_feeds. by destruct (has_settlement b).
Qed.

(** Once settled, a feed operation changes nothing at all. *)
Lemma feed_operation_after_settlement o b :
  has_settlement b = true → is_feed_operation o = true → apply_op o b = b.
Proof.
  intros Hset. destruct o; try discriminate; intros _; unfold apply, step.
  - unfold publish_feed. by rewrite Hset.
  - unfold update_median_feeds. by rewrite Hset.
Qed.

(** No operation writes the settlement price of a settled asset. *)
Lemma apply_keeps_settlement_price o b :
  has_settlement b = true →
  settlement_price (apply_op o b) = settlement_price b.
Proof.
  intros Hset. unfold apply, step. destruct o.
  - unfold publish_feed. by rewrite Hset.
  - unfold update_median_feeds. by rewrite Hset.
  - unfold global_settlement. by rewrite Hset.
  - unfold force_settle. rewrite Hset.
    by destruct (settlement_fund b <? price_convert amt (settlement_price b)).
  - unfold reset_force_settled_volume. by rewrite Hset.
Qed.

Lemma run_keeps_settlement_price (os : list operation) b :
  has_settlement b = true →
  settlement_price (run_ops os b) = settlement_price b.
Proof.
  revert b. induction os as [|o os IH]; intros b Hset; [done |].
  cbn [run foldl].
  pose proof (apply_keeps_settlement_price o b Hset) as Hstep.
  rewrite <- Hstep. apply IH.
  unfold has_settlement in *. by rewrite Hstep.
Qed.

(** C2. Once an asset has settled, [publish_feed] and
    [update_median_feeds] are rejected with [AlreadySettled]; feed
    operations leave [settlement_price] and [settlement_fund] as they are
    (in any state); and after any sequence of operations the asset is
    still settled, at the same price. *)
Theorem global_settlement_is_final b :
  has_settlement b = true →
  (∀ publisher p now, publish_feed publisher p now b = Err AlreadySettled)
  ∧ (∀ authorized now, update_median_feeds authorized now b = Err AlreadySettled)
  ∧ (∀ b0 o, is_feed_operation o = true →
             settlement_price (apply_op o b0) = settlement_price b0
             ∧ settlement_fund (apply_op o b0) = settlement_fund b0)
  ∧ (∀ os, has_settlement (run_ops os b) = true
           ∧ settlement_price (run_ops os b) = settlement_price b).
Proof.
  intros Hset. repeat split.
  - intros. unfold publish_feed. by rewrite Hset.
  - intros. unfold update_median_feeds. by rewrite Hset.
  - by apply feed_operation_keeps_settlement.
  - by apply feed_operation_keeps_settlement.
  - unfold has_settlement in *. by rewrite run_keeps_settlement_price.
  - by apply run_keeps_settlement_price.
Qed.
End Settlement.

Lemma global_settlement_is_final_witness :
  has_settlement settled_data = true
  ∧ publish_feed 1%N (sample_feed 5) 1000 settled_data = Err AlreadySettled
  ∧ update_median_feeds publishers 1000 settled_data = Err AlreadySettled
  ∧ has_settlement
      (run sample_disable_force_settle sample_global_settle 10000
         [PublishFeed 1%N (sample_feed 5) 1000; ForceSettle bitusd 1000000 10;
          GlobalSettle bitusd 0 0; ResetVolume; Recompute publishers 1000]
         settled_data) = true.
Proof.
  assert (Hset : has_settlement settled_data = true) by reflexivity.
  destruct (global_settlement_is_final sample_disable_force_settle
              sample_global_settle 10000 settled_data Hset)
    as (Hpublish & Hrecompute & _ & Hrun).
  split; [exact Hset |]. split; [apply Hpublish |]. split; [apply Hrecompute |].
  apply Hrun.
Defined.

(** ** The settlement-volume throttle *)

(** The throttle on its own, for every bitasset object: a request above
    the cap is refused, and a request within the cap is taken whole. *)
Lemma consume_settlement_volume_spec {price : Type} {HP : Price price}
    (hundred_percent : Z) (b : asset_bitasset_data_object price)
    (supply amt : share_type) :
  (max_force_settlement_volume hundred_percent b supply < force_settled_volume b + amt →
   consume_settlement_volume hundred_percent supply amt b = Err ExceedsSettlementBudget)
  ∧ (force_settled_volume b + amt ≤ max_force_settlement_volume hundred_percent b supply →
     consume_settlement_volume hundred_percent supply amt b
     = Ok (set_force_settled_volume b (force_settled_volume b + amt))).
Proof.
  unfold consume_settlement_volume. split.
  - intros Hover. apply Z.ltb_lt in Hover. by rewrite Hover.
  - intros Hfits. apply Z.ltb_ge in Hfits. by rewrite Hfits.
Qed.

(** C6. For every bitasset object the cap is the configured percentage
    applied to the supply, rounded down (a tenth of 1_000_000 is 100_000).
    The throttle refuses a request that would take [force_settled_volume]
    above the cap with [ExceedsSettlementBudget], and takes a request within
    the cap whole: whenever it succeeds the new volume is the old one plus
    the full amount, within the cap, and nothing else has changed.  For an
    active, ordinary bitasset whose asset allows force settlement,
    [force_settle] is this throttle: a refused request leaves the object as
    it was, and an accepted one adds its amount to [force_settled_volume]. *)
Theorem force_settlement_throttle {price : Type} {HP : Price price}
    (disable_force_settle global_settle hundred_percent : Z)
    (a : asset_object) (b : asset_bitasset_data_object price)
    (supply amt : share_type) :
  0 < hundred_percent →
  (max_force_settlement_volume hundred_percent b supply * hundred_percent
     ≤ supply * maximum_force_settlement_percentage (bitasset_opts b)
     < (max_force_settlement_volume hundred_percent b supply + 1) * hundred_percent)
  ∧ (supply = 1000000 →
     10 * maximum_force_settlement_percentage (bitasset_opts b) = hundred_percent →
     max_force_settlement_volume hundred_percent b supply = 100000)
  ∧ (max_force_settlement_volume hundred_percent b supply < force_settled_volume b + amt →
     consume_settlement_volume hundred_percent supply amt b = Err ExceedsSettlementBudget)
  ∧ (force_settled_volume b + amt ≤ max_force_settlement_volume hundred_percent b supply →
     consume_settlement_volume hundred_percent supply amt b
     = Ok (set_force_settled_volume b (force_settled_volume b + amt)))
  ∧ (∀ b', consume_settlement_volume hundred_percent supply amt b = Ok b' →
           b' = set_force_settled_volume b (force_settled_volume b + amt)
           ∧ force_settled_volume b' = force_settled_volume b + amt
           ∧ force_settled_volume b' ≤ max_force_settlement_volume hundred_percent b' supply)
  ∧ (has_settlement b = false →
     is_prediction_market b = false →
     can_force_settle disable_force_settle a = true →
     force_settle disable_force_settle hundred_percent a supply amt b
     = consume_settlement_volume hundred_percent supply amt b
     ∧ (max_force_settlement_volume hundred_percent b supply < force_settled_volume b + amt →
        force_settle disable_force_settle hundred_percent a supply amt b
        = Err ExceedsSettlementBudget
        ∧ apply disable_force_settle global_settle hundred_percent
            (ForceSettle a supply amt) b = b)
     ∧ (force_settled_volume b + amt ≤ max_force_settlement_volume hundred_percent b supply →
        ∃ b', force_settle disable_force_settle hundred_percent a supply amt b = Ok b'
              ∧ apply disable_force_settle global_settle hundred_percent
                  (ForceSettle a supply amt) b = b'
              ∧ force_settled_volume b' = force_settled_volume b + amt)).
Proof.
  intros Hpos.
  destruct (consume_settlement_volume_spec hundred_percent b supply amt)
    as [Hrefuse Htake].
  split; [| split; [| split; [exact Hrefuse | split; [exact Htake | split]]]].
  - unfold max_force_settlement_volume.
    pose proof (Z.mod_pos_bound
                  (supply * maximum_force_settlement_percentage (bitasset_opts b))
                  hundred_percent Hpos).
    pose proof (Z.div_mod
                  (supply * maximum_force_settlement_percentage (bitasset_opts b))
                  hundred_percent).
    lia.
  - unfold max_force_settlement_volume. intros -> <-.
    rewrite Z.div_mul_cancel_r by lia. reflexivity.
  - intros b' Hrun.
    destruct (Z_lt_le_dec (max_force_settlement_volume hundred_percent b supply)
                (force_settled_volume b + amt)) as [Hover | Hfits].
    + rewrite (Hrefuse Hover) in Hrun. discriminate.
    + rewrite (Htake Hfits) in Hrun. injection Hrun as <-.
      split; [reflexivity |]. split; [reflexivity |]. exact Hfits.
  - intros Hactive Hordinary Hallowed.
    assert (Hforce : force_settle disable_force_settle hundred_percent a supply amt b
                     = consume_settlement_volume hundred_percent supply amt b).
    { unfold force_settle. by rewrite Hactive, Hordinary, Hallowed. }
    split; [exact Hforce |].
    unfold apply, step. rewrite Hforce. split.
    + intros Hover. by rewrite (Hrefuse Hover).
    + intros Hfits. rewrite (Htake Hfits). by eexists.
Qed.

Lemma force_settlement_throttle_witness :
  max_force_settlement_volume 10000 bitusd_data 1000000 = 100000
  ∧ max_force_settlement_volume 10000 settled_data 1000000 = 100000
  ∧ force_settle sample_disable_force_settle 10000 bitusd 1000000 150000 (active_data ∅)
    = Err ExceedsSettlementBudget
  ∧ ∃ b', force_settle sample_disable_force_settle 10000 bitusd 1000000 100000
            (active_data ∅) = Ok b'
          ∧ force_settled_volume b' = 100000.
Proof.
  destruct (force_settlement_throttle sample_disable_force_settle sample_global_settle
              10000 bitusd bitusd_data 1000000 0)
    as (_ & Hcap_market & _); [lia |].
  destruct (force_settlement_throttle sample_disable_force_settle sample_global_settle
              10000 bitusd settled_data 1000000 0)
    as (_ & Hcap_settled & _); [lia |].
  destruct (force_settlement_throttle sample_disable_force_settle sample_global_settle
              10000 bitusd (active_data ∅) 1000000 150000)
    as (_ & _ & _ & _ & _ & Hactive_over); [lia |].
  destruct (force_settlement_throttle sample_disable_force_settle sample_global_settle
              10000 bitusd (active_data ∅) 1000000 100000)
    as (_ & _ & _ & _ & _ & Hactive_fits); [lia |].
  destruct Hactive_over as (_ & Hover & _); try reflexivity.
  destruct Hactive_fits as (_ & _ & Hfits); try reflexivity.
  split; [by apply Hcap_market |].
  split; [by apply Hcap_settled |].
  split; [apply Hover; vm_compute; reflexivity |].
  destruct Hfits as (b' & Hrun & _ & Hvolume); [vm_compute; discriminate |].
  exists b'. split; [exact Hrun | exact Hvolume].
Defined.

(** ** The asset index *)

(** An insertion never removes a symbol from the index. *)
Lemma after_insert_keeps_symbol (r : asset_object) (st : asset_index) (S : string) :
  is_Some (by_symbol st !! S) → is_Some (by_symbol (after_insert r st) !! S).
Proof.
  intros Hin. unfold after_insert, insert_asset.
  destruct (by_symbol st !! symbol r) eqn:Hr; [done |].
  cbn [by_symbol]. rewrite lookup_insert_is_Some.
  destruct (decide (symbol r = S)); [by left | by right].
Qed.

Lemma insert_asset_duplicate (r : asset_object) (st : asset_index) :
  is_Some (by_symbol st !! symbol r) →
  insert_asset r st = Err DuplicateSymbol ∧ after_insert r st = st.
Proof.
  intros [i Hi]. unfold after_insert, insert_asset. by rewrite Hi.
Qed.

(** Insertion into the asset index, for any symbol [S] that is not yet
    indexed: inserting a record with symbol [S] succeeds and indexes it; from
    then on, and whatever is inserted in between, inserting a record with
    symbol [S] fails with [DuplicateSymbol] and leaves the index unchanged.
    [is_valid_symbol] plays no part: the header declares it without a body
    and no ticker grammar is given, so nothing is stated about it. *)
Lemma insert_asset_once (S : string) (st : asset_index)
    (r r' : asset_object) (later : list asset_object) :
  symbol r = S →
  symbol r' = S →
  by_symbol st !! S = None →
  ∃ st',
    insert_asset r st = Ok st'
    ∧ by_symbol st' !! S = Some (next_id st)
    ∧ by_id st' !! next_id st = Some (set_id r (next_id st))
    ∧ insert_asset r' st' = Err DuplicateSymbol
    ∧ after_insert r' st' = st'
    ∧ insert_asset r' (foldl (fun s x => after_insert x s) st' later)
      = Err DuplicateSymbol.
Proof.
  intros Hr Hr' Hfresh. subst S.
  unfold insert_asset at 1. rewrite Hfresh. eexists. split; [reflexivity |].
  cbn [by_symbol by_id next_id].
  split; [apply lookup_insert_eq |]. split; [apply lookup_insert_eq |].
  set (st' := mk_asset_index _ _ _).
  assert (Hin : is_Some (by_symbol st' !! symbol r'))
    by (rewrite Hr'; subst st'; cbn [by_symbol]; by rewrite lookup_insert_eq).
  split; [by apply insert_asset_duplicate |].
  split; [by apply insert_asset_duplicate |].
  apply insert_asset_duplicate.
  clearbody st'. revert st' Hin.
  induction later as [|x later IH]; intros st' Hin; [done |].
  cbn [foldl]. apply IH. by apply after_insert_keeps_symbol.
Qed.

(** ** Amounts as decimal strings *)

Lemma append_cons (c : ascii) (s t : string) :
  (String c s +:+ t)%string = String c (s +:+ t).
Proof. reflexivity. Qed.

Lemma append_nil_r (s : string) : (s +:+ "")%string = s.
Proof. induction s as [|c s IH]; [done |]. by rewrite append_cons, IH. Qed.

Lemma length_append (s1 s2 : string) :
  String.length (s1 +:+ s2) = (String.length s1 + String.length s2)%nat.
Proof.
  induction s1 as [|c s1 IH]; [done |]. rewrite append_cons. cbn. by rewrite IH.
Qed.

Lemma all_digits_append (s1 s2 : string) :
  all_digits (s1 +:+ s2) = all_digits s1 && all_digits s2.
Proof.
  induction s1 as [|c s1 IH]; [done |].
  rewrite append_cons. cbn. by rewrite IH, andb_assoc.
Qed.

Lemma is_digit_digit_char (d : N) : (d < 10)%N → is_digit (digit_char d) = true.
Proof.
  intros Hd. unfold is_digit, digit_char.
  rewrite N_ascii_embedding by lia.
  apply andb_true_iff. split; apply N.leb_le; lia.
Qed.

Lemma digit_value_digit_char (d : N) : (d < 10)%N → digit_value (digit_char d) = d.
Proof.
  intros Hd. unfold digit_value, digit_char.
  rewrite N_ascii_embedding by lia. lia.
Qed.

Lemma is_digit_not (c c' : ascii) :
  is_digit c = true → is_digit c' = false → Ascii.eqb c c' = false.
Proof. intros Hc Hc'. apply Ascii.eqb_neq. congruence. Qed.

Lemma parse_digits_append (acc : N) (s1 s2 : string) :
  parse_digits acc (s1 +:+ s2) = parse_digits acc s1 ≫= λ n, parse_digits n s2.
Proof.
  revert acc. induction s1 as [|c s1 IH]; intros acc; [done |].
  rewrite append_cons. cbn. destruct (is_digit c); [apply IH | done].
Qed.

Lemma parse_digits_is_Some (acc : N) (s : string) :
  is_Some (parse_digits acc s) ↔ all_digits s = true.
Proof.
  revert acc. induction s as [|c s IH]; intros acc; cbn.
  - split; [done | eauto].
  - destruct (is_digit c); cbn; [apply IH |].
    split; [by intros [? ?] | done].
Qed.

Lemma length_fixed_digits (w : nat) (n : N) : String.length (fixed_digits w n) = w.
Proof.
  revert n. induction w as [|w IH]; intros n; [done |].
  cbn [fixed_digits]. rewrite length_append, IH. cbn. lia.
Qed.

Lemma all_digits_fixed_digits (w : nat) (n : N) : all_digits (fixed_digits w n) = true.
Proof.
  revert n. induction w as [|w IH]; intros n; [done |].
  cbn [fixed_digits]. rewrite all_digits_append, IH. cbn.
  rewrite is_digit_digit_char; [done |]. apply N.mod_lt. lia.
Qed.

(** Reading back [w] digits gives the number modulo [10 ^ w]. *)
Lemma parse_fixed_digits (w : nat) (acc n : N) :
  parse_digits acc (fixed_digits w n)
  = Some (acc * 10 ^ N.of_nat w + n mod 10 ^ N.of_nat w)%N.
Proof.
  revert acc n. induction w as [|w IH]; intros acc n.
  - cbn. rewrite N.mod_1_r. f_equal. lia.
  - cbn [fixed_digits]. rewrite parse_digits_append, IH. cbn [mbind option_bind parse_digits].
    assert (Hd : (n mod 10 < 10)%N) by (apply N.mod_lt; lia).
    rewrite is_digit_digit_char, digit_value_digit_char by done.
    f_equal. rewrite Nat2N.inj_succ, N.pow_succ_r'.
    rewrite (N.Div0.mod_mul_r n 10). lia.
Qed.

Lemma strip_zeros_cons (c c' : ascii) (s : string) :
  strip_zeros (String c (String c' s))
  = if Ascii.eqb c "0" then strip_zeros (String c' s) else String c (String c' s).
Proof. reflexivity. Qed.

Lemma strip_zeros_nonempty (s : string) : s ≠ EmptyString → strip_zeros s ≠ EmptyString.
Proof.
  induction s as [|c s IH]; [done | intros _].
  destruct s as [|c' s]; [done |].
  rewrite strip_zeros_cons. destruct (Ascii.eqb c "0"); [by apply IH | done].
Qed.

Lemma all_digits_strip_zeros (s : string) :
  all_digits s = true → all_digits (strip_zeros s) = true.
Proof.
  induction s as [|c s IH]; [done |].
  destruct s as [|c' s]; [done |]. intros Hs.
  rewrite strip_zeros_cons. destruct (Ascii.eqb c "0"); [| done].
  apply IH. cbn [all_digits] in Hs. by apply andb_true_iff in Hs as [_ Hs].
Qed.

Lemma parse_strip_zeros (s : string) :
  parse_digits 0 (strip_zeros s) = parse_digits 0 s.
Proof.
  induction s as [|c s IH]; [done |].
  destruct s as [|c' s]; [done |].
  rewrite strip_zeros_cons. destruct (Ascii.eqb c "0") eqn:Hc; [| done].
  apply Ascii.eqb_eq in Hc. subst c. rewrite IH. reflexivity.
Qed.

Lemma decimal_nonempty (n : N) : decimal n ≠ EmptyString.
Proof.
  unfold decimal. apply strip_zeros_nonempty. intros Hnil.
  apply (f_equal String.length) in Hnil. by rewrite length_fixed_digits in Hnil.
Qed.

Lemma all_digits_decimal (n : N) : all_digits (decimal n) = true.
Proof. apply all_digits_strip_zeros, all_digits_fixed_digits. Qed.

Lemma parse_decimal (n : N) : parse_digits 0 (decimal n) = Some n.
Proof.
  unfold decimal. rewrite parse_strip_zeros, parse_fixed_digits. f_equal.
  rewrite N.mul_0_l, N.add_0_l. apply N.mod_small.
  eapply N.lt_le_trans; [apply N.size_gt |].
  rewrite Nat2N.inj_succ, N2Nat.id.
  apply N.pow_le_mono; lia.
Qed.

(** A string of digits has neither a sign nor a decimal point. *)
Lemma strip_sign_digits (s rest : string) :
  s ≠ EmptyString → all_digits s = true →
  strip_sign (s +:+ rest) = (false, (s +:+ rest)%string).
Proof.
  destruct s as [|c s]; [done | intros _ Hs].
  cbn in Hs. apply andb_true_iff in Hs as [Hc _].
  rewrite append_cons. unfold strip_sign. by rewrite (is_digit_not c "-").
Qed.

Lemma split_point_join (s : string) :
  s = ((split_point s).1
       +:+ match (split_point s).2 with
           | Some rhs => "." +:+ rhs
           | None => ""
           end)%string.
Proof.
  induction s as [|c s IH]; [done |].
  cbn [split_point]. destruct (Ascii.eqb c ".") eqn:Hc.
  - apply Ascii.eqb_eq in Hc. by subst c.
  - cbn [fst snd]. rewrite append_cons. by rewrite <- IH.
Qed.

Lemma split_point_digits (s : string) :
  all_digits s = true →
  split_point s = (s, None)
  ∧ ∀ rhs, split_point (s +:+ "." +:+ rhs) = (s, Some rhs).
Proof.
  induction s as [|c s IH]; [done | intros Hs].
  cbn in Hs. apply andb_true_iff in Hs as [Hc Hs].
  destruct (IH Hs) as [IH1 IH2].
  split.
  - cbn [split_point]. rewrite (is_digit_not c ".") by done. by rewrite IH1.
  - intros rhs. rewrite append_cons. cbn [split_point].
    rewrite (is_digit_not c ".") by done. by rewrite IH2.
Qed.

Lemma strip_sign_join (s : string) :
  s = ((if (strip_sign s).1 then "-" else "") +:+ (strip_sign s).2)%string.
Proof.
  destruct s as [|c s]; [done |]. unfold strip_sign.
  destruct (Ascii.eqb c "-") eqn:Hc; [| done].
  apply Ascii.eqb_eq in Hc. by subst c.
Qed.

Lemma strip_sign_whole (negative : bool) (whole rest : string) :
  whole ≠ EmptyString → all_digits whole = true →
  strip_sign ((if negative then "-" else "") +:+ whole +:+ rest)
  = (negative, (whole +:+ rest)%string).
Proof.
  intros Hne Hdigits. destruct negative.
  - reflexivity.
  - change (strip_sign (whole +:+ rest) = (false, (whole +:+ rest)%string)).
    by apply strip_sign_digits.
Qed.

(** What the parser returns on a string given by its parts. *)
Lemma amount_from_string_parts (a : asset_object) (negative : bool)
    (whole : string) (rhs : option string) :
  whole ≠ EmptyString → all_digits whole = true →
  amount_from_string a
    ((if negative then "-" else "") +:+ whole
     +:+ match rhs with Some ds => "." +:+ ds | None => "" end)
  = match parse_digits 0 whole, rhs with
    | Some w, None => Ok (amount_of a (with_sign negative (w * scaled_precision a)))
    | Some w, Some ds =>
        if (String.length ds <=? precision a)%nat then
          match parse_digits 0 ds with
          | Some f =>
              Ok (amount_of a
                    (with_sign negative
                       (w * scaled_precision a
                        + f * 10 ^ N.of_nat (precision a - String.length ds))))
          | None => Err InvalidAmountFormat
          end
        else Err InvalidAmountFormat
    | None, _ => Err InvalidAmountFormat
    end.
Proof.
  intros Hne Hdigits. unfold amount_from_string.
  rewrite (strip_sign_whole negative whole _ Hne Hdigits). cbn [fst snd].
  destruct (split_point_digits whole Hdigits) as [Hnone Hsome].
  assert (Hsplit : split_point (whole +:+ match rhs with
                                          | Some ds => "." +:+ ds
                                          | None => ""
                                          end) = (whole, rhs)).
  { destruct rhs as [ds|]; [apply Hsome | by rewrite append_nil_r]. }
  rewrite Hsplit. cbn [fst snd].
  destruct whole as [|c whole]; [done |].
  destruct (parse_digits 0 (String c whole)); [| done].
  by destruct rhs.
Qed.

Lemma with_sign_abs (x : Z) : with_sign (x <? 0) (Z.abs_N x) = x.
Proof.
  unfold with_sign. destruct (Z.ltb_spec x 0); rewrite N2Z.inj_abs_N; lia.
Qed.

Lemma amount_round_trip (a : asset_object) (x : share_type) :
  amount_from_string a (amount_to_string a x) = Ok (amount_of a x).
Proof.
  unfold amount_to_string.
  set (m := Z.abs_N x). set (sc := scaled_precision a).
  assert (Hsc : sc ≠ 0%N) by (apply N.pow_nonzero; lia).
  pose proof (N.div_mod m sc Hsc) as Hm.
  destruct (precision a) as [|p] eqn:Hp.
  - pose proof (amount_from_string_parts a (x <? 0) (decimal (m / sc)) None
                  (decimal_nonempty _) (all_digits_decimal _)) as Hparts.
    rewrite parse_decimal in Hparts. rewrite Hparts.
    assert (Hone : sc = 1%N) by (subst sc; unfold scaled_precision; by rewrite Hp).
    fold sc. rewrite Hone, N.div_1_r, N.mul_1_r. subst m. by rewrite with_sign_abs.
  - pose proof (amount_from_string_parts a (x <? 0) (decimal (m / sc))
                  (Some (fixed_digits (S p) (m mod sc)))
                  (decimal_nonempty _) (all_digits_decimal _)) as Hparts.
    rewrite parse_decimal, length_fixed_digits, parse_fixed_digits in Hparts.
    rewrite Hp, Nat.leb_refl, Nat.sub_diag in Hparts. rewrite Hparts.
    f_equal. f_equal. rewrite <- (with_sign_abs x) at 2. f_equal. fold m.
    assert (Hsc' : (10 ^ N.of_nat (S p))%N = sc)
      by (subst sc; unfold scaled_precision; by rewrite Hp).
    fold sc. rewrite Hsc', N.Div0.mod_mod. cbn [N.of_nat]. lia.
Qed.

Lemma amount_from_string_error (a : asset_object) (s : string) (e : error) :
  amount_from_string a s = Err e → e = InvalidAmountFormat.
Proof.
  unfold amount_from_string.
  destruct ((split_point (strip_sign s).2).1); [congruence |].
  destruct (parse_digits _ _); [| congruence].
  destruct ((split_point (strip_sign s).2).2); [| congruence].
  destruct (_ <=? _)%nat; [| congruence].
  destruct (parse_digits _ _); congruence.
Qed.

Lemma amount_from_string_well_formed (a : asset_object) (s : string) :
  (∃ v, amount_from_string a s = Ok v) ↔ well_formed_amount (precision a) s.
Proof.
  split.
  - intros [v Hv]. unfold amount_from_string in Hv.
    pose proof (strip_sign_join s) as Hsign.
    pose proof (split_point_join (strip_sign s).2) as Hbody.
    destruct ((split_point (strip_sign s).2).1) as [|c whole] eqn:Hwhole; [done |].
    destruct (parse_digits 0 (String c whole)) as [w|] eqn:Hw; [| done].
    assert (Hdigits : all_digits (String c whole) = true)
      by (apply (parse_digits_is_Some 0); eauto).
    exists (if (strip_sign s).1 then "-" else "")%string, (String c whole).
    destruct ((split_point (strip_sign s).2).2) as [rhs|] eqn:Hrhs.
    + destruct (String.length rhs <=? precision a)%nat eqn:Hlen; [| done].
      destruct (parse_digits 0 rhs) as [f|] eqn:Hf; [| done].
      exists ("." +:+ rhs)%string.
      split; [by rewrite <- Hbody |].
      split; [destruct (strip_sign s).1; auto |].
      split; [done |]. split; [done |]. right. exists rhs.
      split; [done |].
      split; [apply (parse_digits_is_Some 0); eauto | by apply Nat.leb_le].
    + exists EmptyString.
      split; [by rewrite <- Hbody |].
      split; [destruct (strip_sign s).1; auto |].
      split; [done |]. split; [done |]. by left.
  - intros (sign & whole & frac & -> & Hsign & Hne & Hdigits & Hfrac).
    apply (parse_digits_is_Some 0) in Hdigits as Hparse. destruct Hparse as [w Hw].
    assert (∃ negative : bool, sign = if negative then "-" else "")%string
      as [negative ->]
      by (destruct Hsign as [-> | ->]; [by exists false | by exists true]).
    destruct Hfrac as [-> | (ds & -> & Hds & Hlen)].
    + pose proof (amount_from_string_parts a negative whole None Hne Hdigits) as Hparts.
      rewrite Hw in Hparts. eauto.
    + pose proof (amount_from_string_parts a negative whole (Some ds) Hne Hdigits)
        as Hparts.
      apply (parse_digits_is_Some 0) in Hds as [f Hf].
      apply Nat.leb_le in Hlen. rewrite Hw, Hlen, Hf in Hparts. eauto.
Qed.

(** C7. Reading back what [amount_to_string] writes gives the amount again,
    for every amount and precision.  [amount_from_string] accepts exactly
    the strings made of an optional minus sign, at least one digit and
    optionally a decimal point followed by at most [precision] digits, and
    fails with [InvalidAmountFormat] on every other string. *)
Theorem amount_string_round_trip (a : asset_object) :
  (∀ x, amount_from_string a (amount_to_string a x) = Ok (amount_of a x))
  ∧ (∀ s, well_formed_amount (precision a) s ↔ ∃ v, amount_from_string a s = Ok v)
  ∧ (∀ s, ¬ well_formed_amount (precision a) s
          ↔ amount_from_string a s = Err InvalidAmountFormat)
  ∧ amount_to_string (usd 2) 12345 = "123.45"%string
  ∧ amount_from_string (usd 2) "123.45" = Ok (amount_of (usd 2) 12345).
Proof.
  split; [apply amount_round_trip |].
  split; [intros s; symmetry; apply amount_from_string_well_formed |].
  split; [| by vm_compute].
  intros s. rewrite <- amount_from_string_well_formed. split.
  - intros Hbad. destruct (amount_from_string a s) as [v | e] eqn:Hrun.
    + destruct Hbad. eauto.
    + by rewrite (amount_from_string_error a s e Hrun).
  - intros Herr [v Hv]. congruence.
Qed.

(** * Further properties of the header *)

(** ** Validation and the flag predicates *)

(** X1. A user-issued asset that passes [validate()] allows force
    settlement and cannot be settled globally: [can_force_settle()] is true
    and [can_global_settle()] is false. *)
Theorem validate_fixes_settlement_predicates (dfs gs : Z) (a : asset_object) :
  bitasset_data_id a = None →
  validate dfs gs a = Ok tt →
  can_force_settle dfs a = true ∧ can_global_settle gs a = false.
Proof.
  intros Huia. unfold validate, is_market_issued, can_force_settle, can_global_settle.
  rewrite Huia. cbn [negb].
  destruct (nonzero (Z.land (flags (options a)) dfs)); [discriminate |].
  destruct (nonzero (Z.land (flags (options a)) gs)); [discriminate |].
  destruct (nonzero (Z.land (issuer_permissions (options a)) dfs)); [discriminate |].
  destruct (nonzero (Z.land (issuer_permissions (options a)) gs)); [discriminate |].
  done.
Qed.

Lemma validate_fixes_settlement_predicates_witness :
  can_force_settle sample_disable_force_settle (usd 2) = true
  ∧ can_global_settle sample_global_settle (usd 2) = false.
Proof.
  apply (validate_fixes_settlement_predicates sample_disable_force_settle
           sample_global_settle (usd 2)); reflexivity.
Defined.

Lemma land_lor_same (x m : Z) : Z.land (Z.lor x m) m = m.
Proof.
  apply Z.bits_inj'. intros n Hn.
  rewrite Z.land_spec, Z.lor_spec. by destruct (Z.testbit x n), (Z.testbit m n).
Qed.

Lemma land_lor_disjoint (x m m' : Z) :
  Z.land m m' = 0 → Z.land (Z.lor x m) m' = Z.land x m'.
Proof.
  intros Hdisjoint. apply Z.bits_inj'. intros n Hn.
  apply (f_equal (λ z, Z.testbit z n)) in Hdisjoint.
  rewrite Z.land_spec, Z.bits_0 in Hdisjoint.
  rewrite !Z.land_spec, Z.lor_spec.
  by destruct (Z.testbit x n), (Z.testbit m n), (Z.testbit m' n).
Qed.

(** X2. Setting the disable-force-settle bits in [options.flags] turns
    [can_force_settle()] off and, when the masks share no bit, leaves the
    other flag predicates as they were. *)
Theorem disable_force_settle_flag_is_independent
    (dfs cmf tr oa dc : Z) (a a' : asset_object) :
  dfs ≠ 0 →
  Z.land dfs cmf = 0 → Z.land dfs tr = 0 → Z.land dfs oa = 0 → Z.land dfs dc = 0 →
  flags (options a') = Z.lor (flags (options a)) dfs →
  can_force_settle dfs a' = false
  ∧ charges_market_fees cmf a' = charges_market_fees cmf a
  ∧ is_transfer_restricted tr a' = is_transfer_restricted tr a
  ∧ can_override oa a' = can_override oa a
  ∧ allow_confidential dc a' = allow_confidential dc a.
Proof.
  intros Hdfs Hcmf Htr Hoa Hdc Hflags.
  unfold can_force_settle, charges_market_fees, is_transfer_restricted,
    can_override, allow_confidential.
  rewrite Hflags, land_lor_same, !land_lor_disjoint by done.
  repeat split. unfold nonzero. by apply Z.eqb_neq in Hdfs as ->.
Qed.

Lemma disable_force_settle_flag_is_independent_witness :
  can_force_settle 16 flagged_uia = false
  ∧ charges_market_fees 1 flagged_uia = charges_market_fees 1 (usd 2)
  ∧ is_transfer_restricted 8 flagged_uia = is_transfer_restricted 8 (usd 2)
  ∧ can_override 4 flagged_uia = can_override 4 (usd 2)
  ∧ allow_confidential 64 flagged_uia = allow_confidential 64 (usd 2).
Proof.
  apply (disable_force_settle_flag_is_independent 16 1 8 4 64 (usd 2) flagged_uia);
    (reflexivity || discriminate).
Defined.

(** ** Formatting amounts of an asset *)

Section Formatting.
Variable to_string : asset_object → share_type → string.

(** X3. The two overloads taking an [asset] fail on the same arguments, and
    where they succeed the pretty string is the plain string followed by a
    space and the symbol. *)
Theorem pretty_string_extends_plain_string (a : asset_object) (amt : asset) :
  amount_to_pretty_string_asset to_string a amt
  = (s ← amount_to_string_asset to_string a amt;
     Ok (s +:+ " " +:+ symbol a)%string).
Proof.
  unfold amount_to_pretty_string_asset, amount_to_string_asset,
    amount_to_pretty_string.
  by destruct (FC_ASSERT (N.eqb (asset_id amt) (get_id a))).
Qed.

(** X4. An amount built by [amount()] of an asset is always accepted by the
    overloads of that asset. *)
Theorem amount_of_is_accepted (a : asset_object) (x : share_type) :
  amount_to_string_asset to_string a (amount_of a x) = Ok (to_string a x)
  ∧ amount_to_pretty_string_asset to_string a (amount_of a x)
    = Ok (to_string a x +:+ " " +:+ symbol a)%string.
Proof.
  unfold amount_to_string_asset, amount_to_pretty_string_asset,
    amount_to_pretty_string, amount_of.
  cbn [asset_id amount]. by rewrite N.eqb_refl.
Qed.

(** X5. An amount is never formatted by two assets with different ids: if
    one accepts it, the other fails, for both overloads. *)
Theorem amount_formatted_by_one_asset (a a' : asset_object) (amt : asset)
    (s : string) :
  get_id a ≠ get_id a' →
  amount_to_string_asset to_string a amt = Ok s →
  amount_to_string_asset to_string a' amt = Err assert_exception
  ∧ amount_to_pretty_string_asset to_string a' amt = Err assert_exception
  ∧ asset_id amt = get_id a.
Proof.
  intros Hids. unfold amount_to_string_asset, amount_to_pretty_string_asset.
  destruct (N.eqb_spec (asset_id amt) (get_id a)) as [Heq | Hne]; [| discriminate].
  intros _. rewrite Heq.
  by apply N.eqb_neq in Hids as ->.
Qed.
End Formatting.

Lemma amount_formatted_by_one_asset_witness :
  amount_to_string_asset (λ _ _, "123.45"%string) flagged_uia (mk_asset 12345 1%N)
  = Err assert_exception.
Proof.
  apply (amount_formatted_by_one_asset (λ _ _, "123.45"%string) (usd 2) flagged_uia
           (mk_asset 12345 1%N) "123.45"); [discriminate | reflexivity].
Defined.

(** ** Feed expiration *)

Section Expiration.
Context `{Price price}.
Implicit Type b : asset_bitasset_data_object price.

Lemma feed_is_expired_iff b (now : time_point_sec) :
  feed_is_expired b now = true ↔ feed_expiration_time b ≤ now.
Proof. apply Z.leb_le. Qed.

Lemma feed_is_expired_legacy_iff b (now : time_point_sec) :
  feed_is_expired_before_hardfork_615 b now = true ↔ now ≤ feed_expiration_time b.
Proof. apply Z.geb_le. Qed.

(** X6. The two expiration predicates are not each other's negation: at
    every time at least one of them holds, and both hold exactly at the
    expiration time itself. *)
Theorem expiration_predicates_overlap b (now : time_point_sec) :
  (feed_is_expired b now || feed_is_expired_before_hardfork_615 b now = true)
  ∧ (feed_is_expired b now && feed_is_expired_before_hardfork_615 b now = true
     ↔ now = feed_expiration_time b).
Proof.
  rewrite orb_true_iff, andb_true_iff, feed_is_expired_iff,
    feed_is_expired_legacy_iff.
  lia.
Qed.

(** X7. [feed_is_expired] is monotone in time: a feed expired at some time
    is expired at every later time.  The legacy predicate runs the other
    way: where it holds, it holds at every earlier time. *)
Theorem expiration_predicates_monotone b (now later : time_point_sec) :
  now ≤ later →
  (feed_is_expired b now = true → feed_is_expired b later = true)
  ∧ (feed_is_expired_before_hardfork_615 b later = true →
     feed_is_expired_before_hardfork_615 b now = true).
Proof.
  intros Horder. rewrite !feed_is_expired_iff, !feed_is_expired_legacy_iff. lia.
Qed.

(** X8. When publication time plus lifetime fits [time_point_sec]: while the
    feed is within its lifetime [feed_is_expired] is false and the legacy
    predicate is true; after the expiration time it is the other way
    round. *)
Theorem expiration_predicates_during_lifetime b (now : time_point_sec) :
  0 ≤ current_feed_publication_time b →
  0 ≤ feed_lifetime_sec (bitasset_opts b) →
  current_feed_publication_time b + feed_lifetime_sec (bitasset_opts b) < 2 ^ 32 →
  (current_feed_publication_time b ≤ now
     < current_feed_publication_time b + feed_lifetime_sec (bitasset_opts b) →
   feed_is_expired b now = false
   ∧ feed_is_expired_before_hardfork_615 b now = true)
  ∧ (current_feed_publication_time b + feed_lifetime_sec (bitasset_opts b) < now →
     feed_is_expired b now = true
     ∧ feed_is_expired_before_hardfork_615 b now = false).
Proof.
  intros Hpub Hlife Hfits.
  assert (Hexp : feed_expiration_time b
                 = current_feed_publication_time b
                   + feed_lifetime_sec (bitasset_opts b)).
  { unfold feed_expiration_time, time_add. apply Z.mod_small. lia. }
  unfold feed_is_expired, feed_is_expired_before_hardfork_615. rewrite Hexp.
  split; intros Hnow; split;
    first [ apply Z.leb_le | apply Z.leb_gt | apply Z.geb_le
          | rewrite Z.geb_leb; apply Z.leb_gt ];
    lia.
Qed.

(** ** The indices *)

(** X9. Along a traversal of the [by_feed_expiration] index the expired
    objects come first: the traversal is a run of objects on which
    [feed_is_expired] is true followed by a run on which it is false.  For
    the legacy predicate the objects on which it is true come last. *)
Theorem by_feed_expiration_expired_first
    (l : list (asset_bitasset_data_object price)) (now : time_point_sec) :
  StronglySorted by_feed_expiration l →
  (∃ expired fresh,
     l = expired ++ fresh
     ∧ Forall (λ b, feed_is_expired b now = true) expired
     ∧ Forall (λ b, feed_is_expired b now = false) fresh)
  ∧ (∃ before after,
       l = before ++ after
       ∧ Forall (λ b, feed_is_expired_before_hardfork_615 b now = false) before
       ∧ Forall (λ b, feed_is_expired_before_hardfork_615 b now = true) after).
Proof.
  induction 1 as [|b l Hsorted [IHnew IHold] Hhead]; [split; by exists [], [] |].
  unfold by_feed_expiration in Hhead. split.
  - destruct (feed_is_expired b now) eqn:Hb.
    + destruct IHnew as (expired & fresh & -> & Hexpired & Hfresh).
      exists (b :: expired), fresh. split; [done |]. split; [by constructor | done].
    + exists [], (b :: l). split; [done |]. split; [constructor |].
      constructor; [done |].
      eapply Forall_impl; [exact Hhead |]. intros b' Hle. cbn beta in Hle.
      apply Z.leb_gt in Hb. apply Z.leb_gt. lia.
  - destruct (feed_is_expired_before_hardfork_615 b now) eqn:Hb.
    + exists [], (b :: l). split; [done |]. split; [constructor |].
      constructor; [done |].
      eapply Forall_impl; [exact Hhead |]. intros b' Hle. cbn beta in Hle.
      apply feed_is_expired_legacy_iff in Hb. apply feed_is_expired_legacy_iff. lia.
    + destruct IHold as (before & after & -> & Hbefore & Hafter).
      exists (b :: before), after. split; [done |]. split; [by constructor | done].
Qed.
End Expiration.

Lemma expiration_predicates_monotone_witness :
  feed_is_expired (published_at 100) 90000 = true
  ∧ feed_is_expired_before_hardfork_615 (published_at 100) 50 = true.
Proof.
  destruct (expiration_predicates_monotone (published_at 100) 86500 90000)
    as [Hnew _]; [lia |].
  destruct (expiration_predicates_monotone (published_at 100) 50 86500)
    as [_ Hold]; [lia |].
  split; [apply Hnew; reflexivity | apply Hold; reflexivity].
Defined.

Lemma expiration_predicates_during_lifetime_witness :
  feed_is_expired (published_at 100) 5000 = false
  ∧ feed_is_expired_before_hardfork_615 (published_at 100) 5000 = true.
Proof.
  destruct (expiration_predicates_during_lifetime (published_at 100) 5000)
    as [Hduring _]; try (cbn; lia).
  apply Hduring. cbn. lia.
Defined.

Lemma by_feed_expiration_expired_first_witness :
  ∃ expired fresh,
    [published_at 100; published_at 200; published_at 200; published_at 5000]
    = expired ++ fresh
    ∧ Forall (λ b, feed_is_expired b 86600 = true) expired
    ∧ Forall (λ b, feed_is_expired b 86600 = false) fresh.
Proof.
  apply (by_feed_expiration_expired_first
           [published_at 100; published_at 200; published_at 200; published_at 5000]
           86600).
  repeat (constructor; [repeat constructor; by vm_compute |]). constructor.
Defined.

(** X10. Along a traversal of the [by_type] index the assets that are not
    market-issued come first and the market-issued ones last, each group in
    ascending order of id. *)
Theorem by_type_market_issued_last (l : list asset_object) :
  StronglySorted (λ a a', by_type_less a a' = true) l →
  ∃ uia mia,
    l = uia ++ mia
    ∧ Forall (λ a, is_market_issued a = false) uia
    ∧ Forall (λ a, is_market_issued a = true) mia
    ∧ StronglySorted (λ a a', (get_id a < get_id a')%N) uia
    ∧ StronglySorted (λ a a', (get_id a < get_id a')%N) mia.
Proof.
  induction 1 as [|a l Hsorted IH Hhead].
  { exists [], []. repeat split; constructor. }
  destruct IH as (uia & mia & -> & Huia & Hmia & Suia & Smia).
  unfold by_type_less in Hhead.
  destruct (is_market_issued a) eqn:Ha.
  - assert (Hall : Forall (λ a', is_market_issued a' = true
                                 ∧ (get_id a < get_id a')%N) (uia ++ mia)).
    { eapply Forall_impl; [exact Hhead |]. intros a' Hless. cbn beta in Hless.
      destruct (is_market_issued a'); cbn in Hless; [| done].
      split; [done | by apply N.ltb_lt]. }
    destruct uia as [|u uia].
    + exists [], (a :: mia). cbn [app] in *. split; [done |].
      split; [constructor |]. split.
      * constructor; [done | done].
      * split; [constructor |]. constructor; [done |].
        eapply Forall_impl; [exact Hall | by intros a' [_ ?]].
    + apply Forall_inv in Huia. apply Forall_inv in Hall as [Hu _]. congruence.
  - exists (a :: uia), mia. split; [done |].
    split; [by constructor |]. split; [done |]. split; [| done].
    constructor; [done |].
    apply Forall_app in Hhead as [Hhead _].
    rewrite Forall_forall in Hhead, Huia. apply Forall_forall. intros u Hu.
    specialize (Hhead u Hu). rewrite (Huia u Hu) in Hhead. cbn in Hhead.
    by apply N.ltb_lt.
Qed.

Lemma by_type_market_issued_last_witness :
  ∃ uia mia,
    [usd 2; flagged_uia; bitusd] = uia ++ mia
    ∧ Forall (λ a, is_market_issued a = false) uia
    ∧ Forall (λ a, is_market_issued a = true) mia.
Proof.
  destruct (by_type_market_issued_last [usd 2; flagged_uia; bitusd])
    as (uia & mia & Hsplit & Huia & Hmia & _).
  - repeat (constructor; [repeat constructor; by vm_compute |]). constructor.
  - by exists uia, mia.
Defined.
